(** * Admission control of [src/rate-limiter.js]

    A shallow embedding of the [RateLimiter] class and proofs about its two
    counting strategies.

    Conventions of the embedding.

    - A JavaScript object used as a dictionary ([config.routeLimits],
      [this.routeCounts]) is a [gmap string Z]; [_.has(o, k)] is
      [is_Some (o !! k)] and [o[k]] is the looked-up number or [undefined].
    - Numbers are integers in [Z].  Counters start at 0 and move by 1, quotas
      are the integers of the configuration; on that range (below 2^53)
      the arithmetic of JavaScript numbers and of the store's integers is
      the arithmetic of [Z].
    - The Express middleware [(req, res, next)] is a function of [req.path];
      what it does to [res] and [next] is the returned [Effect].
    - The Redis client [this.redis] is the [World]: the key/value contents
      and, for each store call in order of issue, whether it fails. *)

From stdpp Require Import gmap strings list fin_maps relations.
From Stdlib Require Import ZArith Lia.

Local Open Scope Z_scope.

(** ** JavaScript values that reach the comparison [<] *)

Module JS.

Inductive value :=
| Num (z : Z)
| Null
| Undefined.

(** [ToNumber]: [null] is 0 and [undefined] is NaN, written [None]. *)
Definition ToNumber (v : value) : option Z :=
  match v with
  | Num z => Some z
  | Null => Some 0
  | Undefined => None
  end.

(** [a < b]: false as soon as one side is NaN. *)
Definition lt (a b : value) : bool :=
  match ToNumber a, ToNumber b with
  | Some x, Some y => x <? y
  | _, _ => false
  end.

(** [o[k]] on an object whose own properties are numbers. *)
Definition prop (o : gmap string Z) (k : string) : value :=
  match o !! k with
  | Some z => Num z
  | None => Undefined
  end.

End JS.

(** ** What a middleware call does *)

(** The body passed to [res.status(..).json(..)]. *)
Record Json := { statusCode : Z; message : string }.

(** Either [next()] is called, or a response is written. *)
Inductive Effect :=
| Next
| Respond (status : Z) (body : Json).

(** The two rejection bodies, shared by both strategies. *)
Definition notConfigured (routePath : string) : Effect :=
  Respond 429
    {| statusCode := 400;
       message := "Route path " +:+ routePath +:+ " not configured." |}.

Definition limitReached (routePath : string) : Effect :=
  Respond 429
    {| statusCode := 429;
       message := "Route path " +:+ routePath
                  +:+ " has reached its request limit." |}.

(** The decisions of the specification, read off the effect: the status
    code of the body tells the two rejections apart. *)
Inductive AdmitDecision :=
  ALLOW | REJECT_UNKNOWN_ROUTE | REJECT_QUOTA_EXCEEDED.

Definition decision (e : Effect) : AdmitDecision :=
  match e with
  | Next => ALLOW
  | Respond _ b =>
      if statusCode b =? 400 then REJECT_UNKNOWN_ROUTE
      else REJECT_QUOTA_EXCEEDED
  end.

(** ** The controller object *)

Record Config := {
  cfg_routeLimits : gmap string Z;
  cfg_clusterMode : bool;
  cfg_connectionString : string
}.

(** [routeCounts] is only assigned in non-cluster mode; [None] is the
    missing property. *)
Record RateLimiter := {
  clusterMode : bool;
  connectionString : string;
  routeCounts : option (gmap string Z);
  routeLimits : gmap string Z
}.

Definition set_routeCounts (this : RateLimiter) (c : gmap string Z)
  : RateLimiter :=
  {| clusterMode := clusterMode this;
     connectionString := connectionString this;
     routeCounts := Some c;
     routeLimits := routeLimits this |}.

(** ** Local strategy *)

(** [limitRateNonCluster]: three branches, the middle one writes
    [routeCounts[routePath] += 1] before calling [next()]. *)
Definition limitRateNonCluster (this : RateLimiter) (routePath : string)
  : Effect * RateLimiter :=
  match routeCounts this with
  | None => (notConfigured routePath, this)
  | Some counts =>
      match counts !! routePath with
      | None => (notConfigured routePath, this)
      | Some c =>
          if JS.lt (JS.Num c) (JS.prop (routeLimits this) routePath)
          then (Next, set_routeCounts this (<[routePath := c + 1]> counts))
          else (limitReached routePath, this)
      end
  end.

(** Requests handled one after the other by the same controller. *)
Fixpoint serveLocal (this : RateLimiter) (reqs : list string)
  : list Effect * RateLimiter :=
  match reqs with
  | [] => ([], this)
  | p :: rest =>
      let '(e, this1) := limitRateNonCluster this p in
      let '(es, this2) := serveLocal this1 rest in
      (e :: es, this2)
  end.

(** ** The shared store seen through the Redis client *)

(** The reason a command's promise is rejected: the client could not get
    the command to the store. *)
Inductive StoreError := Unreachable.

(** A promise once settled. *)
Inductive Settled (A : Type) :=
| Fulfilled (a : A)
| Rejected (e : StoreError).
Arguments Fulfilled {A} a.
Arguments Rejected {A} e.

(** [kv] is the store's contents, [clock] counts the commands issued so
    far, and [down n] tells whether the [n]-th command fails in transport.
    The store executes commands in the order they are issued. *)
Record World := {
  kv : gmap string Z;
  clock : nat;
  down : nat -> bool
}.

Definition Async (A : Type) : Type := World -> Settled A * World.

Definition resolve {A} (a : A) : Async A := fun w => (Fulfilled a, w).

(** [await m] followed by the rest of the async function: a rejection of
    [m] rejects the whole function at that point. *)
Definition await {A B} (m : Async A) (k : A -> Async B) : Async B :=
  fun w =>
    match m w with
    | (Fulfilled a, w1) => k a w1
    | (Rejected e, w1) => (Rejected e, w1)
    end.

Notation "x <~ m ;; k" := (await m (fun x => k))
  (at level 100, m at next level, right associativity).

(** One command: it takes its turn on the clock, and is applied to the
    contents unless transport fails. *)
Definition command {A} (f : gmap string Z -> A * gmap string Z) : Async A :=
  fun w =>
    if down w (clock w)
    then (Rejected Unreachable,
          {| kv := kv w; clock := S (clock w); down := down w |})
    else let '(a, m) := f (kv w) in
         (Fulfilled a, {| kv := m; clock := S (clock w); down := down w |}).

Module Redis.

(** SETNX: write only when the key is absent; replies 1 when it wrote. *)
Definition setnx (key : string) (v : Z) : Async Z :=
  command (fun m =>
    match m !! key with
    | Some _ => (0, m)
    | None => (1, <[key := v]> m)
    end).

(** EXISTS: 1 when the key is present, 0 otherwise. *)
Definition exists_ (key : string) : Async Z :=
  command (fun m => (if m !! key is Some _ then 1 else 0, m)).

(** GET: the value, or [null]. *)
Definition get (key : string) : Async JS.value :=
  command (fun m =>
    (match m !! key with Some z => JS.Num z | None => JS.Null end, m)).

(** INCR: add one in the store itself; an absent key counts as 0. *)
Definition incr (key : string) : Async Z :=
  command (fun m =>
    let v := default 0 (m !! key) + 1 in (v, <[key := v]> m)).

End Redis.

(** The key of a route: [`routeCounts:${path}`]. *)
Definition routeKey (path : string) : string := "routeCounts:" +:+ path.

(** ** Shared strategy *)

Definition _pathIsValidForLimit (path : string) : Async bool :=
  isValidLimit <~ Redis.exists_ (routeKey path) ;;
  resolve (if isValidLimit =? 1 then true else false).

Definition _getPathCountCluster (path : string) : Async JS.value :=
  count <~ Redis.get (routeKey path) ;;
  resolve count.

Definition _incrementPathCountCluster (path : string) : Async unit :=
  _ <~ Redis.incr (routeKey path) ;;
  resolve tt.

Definition limitRateCluster (this : RateLimiter) (routePath : string)
  : Async Effect :=
  isValidPath <~ _pathIsValidForLimit routePath ;;
  if negb isValidPath then resolve (notConfigured routePath)
  else
    count <~ _getPathCountCluster routePath ;;
    if JS.lt count (JS.prop (routeLimits this) routePath)
    then _ <~ _incrementPathCountCluster routePath ;; resolve Next
    else resolve (limitReached routePath).

(** ** Construction *)

(** [_.keys(o)]. *)
Definition keys (o : gmap string Z) : list string := (map_to_list o).*1.

(** A command whose promise is dropped: the constructor does not await
    [setnx] and goes on whatever the reply. *)
Definition forget {A} (m : Async A) (w : World) : World := (m w).2.

(** The [_.forEach] of the constructor over a list of route paths. *)
Definition seed (paths : list string) (w : World) : World :=
  foldl (fun w1 key => forget (Redis.setnx (routeKey key) 0) w1) w paths.

(** [new RateLimiter(config)].  In cluster mode the commands of the
    seeding loop reach the store in the order of the loop, ahead of the
    commands of any later call. *)
Definition constructor (config : Config) (w : World) : RateLimiter * World :=
  if cfg_clusterMode config
  then ({| clusterMode := true;
           connectionString := cfg_connectionString config;
           routeCounts := None;
           routeLimits := cfg_routeLimits config |},
        seed (keys (cfg_routeLimits config)) w)
  else ({| clusterMode := false;
           connectionString := cfg_connectionString config;
           routeCounts := Some ((fun _ => 0) <$> cfg_routeLimits config);
           routeLimits := cfg_routeLimits config |},
        w).

(** [this.limitRate], chosen once by the constructor. *)
Definition limitRate (this : RateLimiter) (routePath : string) (w : World)
  : Settled Effect * RateLimiter * World :=
  if clusterMode this
  then let '(r, w1) := limitRateCluster this routePath w in (r, this, w1)
  else let '(e, this1) := limitRateNonCluster this routePath in
       (Fulfilled e, this1, w).

(** The counter of a route in each mode. *)
Definition localCount (this : RateLimiter) (route : string) : option Z :=
  counts ← routeCounts this; counts !! route.

Definition sharedCount (w : World) (route : string) : option Z :=
  kv w !! routeKey route.

(** ** Concurrent requests in one process *)

(** [limitRateNonCluster] is a synchronous function and Node runs it to
    completion: an interleaving of requests that are in flight together is
    an order in which the event loop picks them. *)
Record Proc := {
  server : RateLimiter;
  pending : list string;
  handled : list (string * Effect)
}.

Inductive pick : Proc -> Proc -> Prop :=
| pick_one this pre p post done e this1 :
    limitRateNonCluster this p = (e, this1) ->
    pick {| server := this; pending := pre ++ p :: post; handled := done |}
         {| server := this1; pending := pre ++ post;
            handled := done ++ [(p, e)] |}.

(** How many handled requests were on [route], and how many of those
    were let through. *)
Definition arrived (route : string) (done : list (string * Effect)) : nat :=
  length (filter (fun x => x.1 = route) done).

Definition isNext (e : Effect) : bool :=
  match e with Next => true | Respond _ _ => false end.

Definition admitted (route : string) (done : list (string * Effect)) : nat :=
  length (filter (fun x => x.1 = route ∧ isNext x.2 = true) done).


(** ** Notions used in the statements *)

(** The world after [n] more commands that left the contents at [m]. *)
Definition advance (n : nat) (m : gmap string Z) (w : World) : World :=
  {| kv := m; clock := (n + clock w)%nat; down := down w |}.

(** The counter of a route as the controller in use sees it. *)
Definition counter (this : RateLimiter) (w : World) (route : string)
  : option Z :=
  if clusterMode this then sharedCount w route else localCount this route.

(** Requests handled one after the other through [this.limitRate]. *)
Fixpoint serve (this : RateLimiter) (reqs : list string) (w : World)
  : list (Settled Effect) * RateLimiter * World :=
  match reqs with
  | [] => ([], this, w)
  | p :: rest =>
      let '(r, this1, w1) := limitRate this p w in
      let '(rs, this2, w2) := serve this1 rest w1 in
      (r :: rs, this2, w2)
  end.

(** The cases of one call through [this.limitRate], used to reason by
    cases on its result: the branch taken, the commands that went
    through, and the counters before and after. *)
Inductive outcome (this : RateLimiter) (p : string) (w : World)
  : Settled Effect -> RateLimiter -> World -> Prop :=
| out_failed this1 w1 :
    clusterMode this = true ->
    (exists n, (clock w <= n < clock w1)%nat /\ down w n = true) ->
    clusterMode this1 = clusterMode this ->
    (forall q, counter this1 w1 q = counter this w q) ->
    kv w1 = kv w ->
    outcome this p w (Rejected Unreachable) this1 w1
| out_unknown this1 w1 :
    counter this w p = None ->
    (forall n, (clock w <= n < clock w1)%nat -> down w n = false) ->
    clusterMode this1 = clusterMode this ->
    (forall q, counter this1 w1 q = counter this w q) ->
    kv w1 = kv w ->
    outcome this p w (Fulfilled (notConfigured p)) this1 w1
| out_full this1 w1 c :
    counter this w p = Some c ->
    JS.lt (JS.Num c) (JS.prop (routeLimits this) p) = false ->
    (forall n, (clock w <= n < clock w1)%nat -> down w n = false) ->
    clusterMode this1 = clusterMode this ->
    (forall q, counter this1 w1 q = counter this w q) ->
    kv w1 = kv w ->
    outcome this p w (Fulfilled (limitReached p)) this1 w1
| out_allow this1 w1 c :
    counter this w p = Some c ->
    JS.lt (JS.Num c) (JS.prop (routeLimits this) p) = true ->
    (forall n, (clock w <= n < clock w1)%nat -> down w n = false) ->
    clusterMode this1 = clusterMode this ->
    counter this1 w1 p = Some (c + 1) ->
    (forall q, q <> p -> counter this1 w1 q = counter this w q) ->
    outcome this p w (Fulfilled Next) this1 w1.

(** How many requests of a pool are on [route]. *)
Definition requests (route : string) (reqs : list string) : nat :=
  length (filter (fun p => p = route) reqs).

(** ** Sample configurations *)

(** A world whose store is always reachable. *)
Definition reachable (m : gmap string Z) : World :=
  {| kv := m; clock := 0; down := fun _ => false |}.

(** The scenario of the specification: one route with quota 2. *)
Definition quotaTwo (cluster : bool) : Config :=
  {| cfg_routeLimits := {[ "/a" := 2 ]};
     cfg_clusterMode := cluster;
     cfg_connectionString := "redis://127.0.0.1:6379/0" |}.

(** A store that already holds a counter for a route [/b], as a run with
    another route table leaves it behind. *)
Definition leftover : World := reachable {[ "routeCounts:/b" := 0 ]}.

(** A store that drops its second command and every later one. *)
Definition failing (m : gmap string Z) : World :=
  {| kv := m; clock := 0; down := fun n => bool_decide (1 <= n)%nat |}.

(** The pool [/a], [/b], [/a] in flight on the quota-2 table, once the
    event loop has picked the last request first, then the first, then
    the middle one. *)
Definition raceEnd : Proc :=
  {| server :=
       (serveLocal (constructor (quotaTwo false) (reachable ∅)).1
                   ["/a"; "/a"; "/b"]).2;
     pending := [];
     handled := [("/a", Next); ("/a", Next); ("/b", notConfigured "/b")] |}.

(** A store that cannot be reached for its first [k] commands and answers
    from then on. *)
Definition outage (k : nat) (m : gmap string Z) : World :=
  {| kv := m; clock := 0; down := fun n => bool_decide (n < k)%nat |}.


(** ** Cluster-mode calls in flight together *)

(** [limitRateCluster] is an async function: it gives the event loop back
    at each awaited store command, and calls in flight together, in one
    process or in several processes on the same store, take turns
    command by command.  A call in flight is suspended before its
    EXISTS, before its GET, before its INCR, or it is settled. *)
Inductive Stage :=
| AtExists
| AtGet
| AtIncr
| Done (r : Settled Effect).

Record Task := { taskPath : string; taskStage : Stage }.

(** Run a suspended call up to its next awaited command or to its end:
    the three segments of [limitRateCluster]. *)
Definition resume (this : RateLimiter) (t : Task) (w : World)
  : Stage * World :=
  let routePath := taskPath t in
  match taskStage t with
  | AtExists =>
      match _pathIsValidForLimit routePath w with
      | (Fulfilled isValidPath, w1) =>
          if negb isValidPath
          then (Done (Fulfilled (notConfigured routePath)), w1)
          else (AtGet, w1)
      | (Rejected e, w1) => (Done (Rejected e), w1)
      end
  | AtGet =>
      match _getPathCountCluster routePath w with
      | (Fulfilled count, w1) =>
          if JS.lt count (JS.prop (routeLimits this) routePath)
          then (AtIncr, w1)
          else (Done (Fulfilled (limitReached routePath)), w1)
      | (Rejected e, w1) => (Done (Rejected e), w1)
      end
  | AtIncr =>
      match _incrementPathCountCluster routePath w with
      | (Fulfilled _, w1) => (Done (Fulfilled Next), w1)
      | (Rejected e, w1) => (Done (Rejected e), w1)
      end
  | Done r => (Done r, w)
  end.

Definition settled (st : Stage) : bool :=
  match st with Done _ => true | _ => false end.

(** One turn: some call that is not settled runs its next segment. *)
Inductive race (this : RateLimiter)
  : list Task * World -> list Task * World -> Prop :=
| race_resume pre t post w st w1 :
    settled (taskStage t) = false ->
    resume this t w = (st, w1) ->
    race this (pre ++ t :: post, w)
              (pre ++ {| taskPath := taskPath t; taskStage := st |} :: post,
               w1).

(** The calls of a pool as they start. *)
Definition launch (reqs : list string) : list Task :=
  (fun p => {| taskPath := p; taskStage := AtExists |}) <$> reqs.

(** Calls on [route] that passed the comparison and have not incremented
    yet, and calls on [route] that were let through. *)
Definition passed (st : Stage) : bool :=
  match st with AtIncr => true | _ => false end.

Definition letThrough (st : Stage) : bool :=
  match st with Done (Fulfilled Next) => true | _ => false end.

Definition tally (f : Stage -> bool) (route : string) (ts : list Task) : nat :=
  length (filter (fun t => taskPath t = route /\ f (taskStage t) = true) ts).

(** Two calls on [/a] in flight on the quota-2 table against a store that
    already counts 1: each has checked the key, then each has read the
    count, then each has incremented. *)
Definition overshootEnd : list Task * World :=
  (replicate 2 {| taskPath := "/a"; taskStage := Done (Fulfilled Next) |},
   {| kv := {[ "routeCounts:/a" := 3 ]}; clock := 6;
      down := fun _ => false |}).

(** * Proofs *)

(** ** The comparison and the local branches *)

Lemma lt_num_prop (limits : gmap string Z) (p : string) (c : Z) :
  JS.lt (JS.Num c) (JS.prop limits p)
  = match limits !! p with Some n => c <? n | None => false end.
Proof. unfold JS.lt, JS.prop. by destruct (limits !! p). Qed.


Lemma local_allow this counts p c n :
  routeCounts this = Some counts -> counts !! p = Some c ->
  routeLimits this !! p = Some n -> c < n ->
  limitRateNonCluster this p
  = (Next, set_routeCounts this (<[p := c + 1]> counts)).
Proof.
  intros Hc Hp Hn Hlt. unfold limitRateNonCluster.
  rewrite Hc, Hp, lt_num_prop, Hn.
  destruct (Z.ltb_spec c n); [done|lia].
Qed.

Lemma local_full this counts p c n :
  routeCounts this = Some counts -> counts !! p = Some c ->
  routeLimits this !! p = Some n -> n <= c ->
  limitRateNonCluster this p = (limitReached p, this).
Proof.
  intros Hc Hp Hn Hle. unfold limitRateNonCluster.
  rewrite Hc, Hp, lt_num_prop, Hn.
  destruct (Z.ltb_spec c n); [lia|done].
Qed.

Lemma serveLocal_cons this p rest :
  serveLocal this (p :: rest)
  = ((limitRateNonCluster this p).1
       :: (serveLocal (limitRateNonCluster this p).2 rest).1,
     (serveLocal (limitRateNonCluster this p).2 rest).2).
Proof.
  simpl. destruct (limitRateNonCluster this p) as [e this1]. simpl.
  by destruct (serveLocal this1 rest).
Qed.

Lemma constructor_local config w :
  cfg_clusterMode config = false ->
  constructor config w
  = ({| clusterMode := false;
        connectionString := cfg_connectionString config;
        routeCounts := Some ((fun _ => 0) <$> cfg_routeLimits config);
        routeLimits := cfg_routeLimits config |}, w).
Proof. unfold constructor. by intros ->. Qed.

(** ** Sequential calls on one route *)

Lemma serveLocal_replicate m : forall this counts r c n,
  routeCounts this = Some counts -> counts !! r = Some c ->
  routeLimits this !! r = Some n ->
  (serveLocal this (replicate m r)).1
  = (fun k => if c + Z.of_nat k <? n then Next else limitReached r)
      <$> seq 0 m.
Proof.
  induction m as [|m IH]; intros this counts r c n Hc Hr Hn; [done|].
  change (replicate (S m) r) with (r :: replicate m r).
  rewrite serveLocal_cons. cbn [fst seq fmap list_fmap].
  rewrite <- fmap_S_seq, <- list_fmap_compose.
  destruct (Z.ltb_spec (c + Z.of_nat 0) n) as [Hlt|Hge].
  - rewrite (local_allow this counts r c n); [|done|done|done|lia]. cbn [fst snd].
    f_equal.
    rewrite (IH _ (<[r := c + 1]> counts) r (c + 1) n);
      [|done|apply lookup_insert_eq|done].
    apply list_fmap_ext. intros _ k _. simpl.
    by replace (c + 1 + Z.of_nat k) with (c + Z.of_nat (S k)) by lia.
  - rewrite (local_full this counts r c n); [|done|done|done|lia]. cbn [fst snd].
    f_equal. rewrite (IH _ counts r c n) by done.
    apply list_fmap_ext. intros _ k _. simpl.
    destruct (Z.ltb_spec (c + Z.of_nat k) n),
             (Z.ltb_spec (c + Z.of_nat (S k)) n); (done || lia).
Qed.

(** C1. In local mode, with quota [n] for [route], the calls of a run of
    [m] sequential calls on [route] from the freshly constructed
    controller are let through ([next()], decision ALLOW) while their
    index is below [n], and every call from index [n] on gets the
    limit-reached response (decision REJECT_QUOTA_EXCEEDED); the
    comparison is strict, so a quota of 0 lets nothing through. *)
Theorem C1_quota_boundary config w route n m k :
  cfg_clusterMode config = false ->
  cfg_routeLimits config !! route = Some n ->
  (k < m)%nat ->
  let effects := (serveLocal (constructor config w).1 (replicate m route)).1 in
  (Z.of_nat k < n ->
     effects !! k = Some Next /\ decision Next = ALLOW)
  /\ (n <= Z.of_nat k ->
     effects !! k = Some (limitReached route)
     /\ decision (limitReached route) = REJECT_QUOTA_EXCEEDED)
  /\ (n = 0 -> effects = replicate m (limitReached route)).
Proof.
  intros Hmode Hn Hk effects. subst effects.
  rewrite (constructor_local _ _ Hmode). cbn [fst].
  erewrite serveLocal_replicate;
    [|done|by rewrite lookup_fmap, Hn|done].
  rewrite list_lookup_fmap, (lookup_seq_lt _ _ _ Hk). simpl.
  split; [|split].
  - intros Hlt. destruct (Z.ltb_spec (0 + Z.of_nat k) n); [done|lia].
  - intros Hge. destruct (Z.ltb_spec (0 + Z.of_nat k) n); [lia|done].
  - intros ->. clear Hk Hn. generalize 0%nat.
    induction m as [|m IH]; intros s; [done|]. simpl. rewrite IH.
    destruct (Z.ltb_spec (0 + Z.of_nat s) 0); [lia|done].
Qed.

Lemma C1_quota_boundary_witness :
  (serveLocal (constructor (quotaTwo false) (reachable ∅)).1
              (replicate 3 "/a")).1 !! 2%nat
  = Some (limitReached "/a").
Proof.
  apply (C1_quota_boundary (quotaTwo false) (reachable ∅) "/a" 2 3 2);
    [reflexivity | reflexivity | lia | lia].
Defined.

(** ** The fresh counter map *)

(** C7. Right after construction in local mode the counter map has
    exactly the keys of the quota table, each with count 0, and the store
    has not been touched. *)
Theorem C7_fresh_counts config w :
  cfg_clusterMode config = false ->
  exists counts,
    routeCounts (constructor config w).1 = Some counts
    /\ dom counts = dom (cfg_routeLimits config)
    /\ (forall route, is_Some (cfg_routeLimits config !! route) ->
          counts !! route = Some 0)
    /\ (forall route, cfg_routeLimits config !! route = None ->
          counts !! route = None)
    /\ routeLimits (constructor config w).1 = cfg_routeLimits config
    /\ (constructor config w).2 = w.
Proof.
  intros Hmode. rewrite (constructor_local _ _ Hmode). cbn [fst snd].
  eexists. split; [reflexivity|].
  split; [apply dom_fmap_L|].
  split; [|split; [|done]].
  - intros route [n Hn]. by rewrite lookup_fmap, Hn.
  - intros route Hn. by rewrite lookup_fmap, Hn.
Qed.

Lemma C7_fresh_counts_witness :
  exists counts,
    routeCounts (constructor (quotaTwo false) leftover).1 = Some counts
    /\ dom counts = dom (cfg_routeLimits (quotaTwo false))
    /\ (forall route, is_Some (cfg_routeLimits (quotaTwo false) !! route) ->
          counts !! route = Some 0)
    /\ (forall route, cfg_routeLimits (quotaTwo false) !! route = None ->
          counts !! route = None)
    /\ routeLimits (constructor (quotaTwo false) leftover).1
       = cfg_routeLimits (quotaTwo false)
    /\ (constructor (quotaTwo false) leftover).2 = leftover.
Proof. apply (C7_fresh_counts (quotaTwo false) leftover). reflexivity. Defined.

(** ** Determinism of the local check *)

(** C10. Two runs of [limitRateNonCluster] that start from the same
    counter map, the same quota table and the same route path take the
    same decision and end with the same counter map and quota table,
    whatever else differs between the two controllers. *)
Theorem C10_local_deterministic this1 this2 p1 p2 :
  routeCounts this1 = routeCounts this2 ->
  routeLimits this1 = routeLimits this2 ->
  p1 = p2 ->
  (limitRateNonCluster this1 p1).1 = (limitRateNonCluster this2 p2).1
  /\ routeCounts (limitRateNonCluster this1 p1).2
     = routeCounts (limitRateNonCluster this2 p2).2
  /\ routeLimits (limitRateNonCluster this1 p1).2
     = routeLimits (limitRateNonCluster this2 p2).2.
Proof.
  intros Hc Hl ->. unfold limitRateNonCluster.
  destruct this1 as [m1 s1 c1 l1], this2 as [m2 s2 c2 l2].
  cbn [routeCounts routeLimits] in *. subst c2 l2.
  destruct c1 as [counts|]; [|done].
  destruct (counts !! p2) as [c|]; [|done].
  by destruct (JS.lt _ _).
Qed.

Lemma C10_local_deterministic_witness :
  let this1 := (constructor (quotaTwo false) (reachable ∅)).1 in
  let this2 :=
    {| clusterMode := true; connectionString := "redis://10.0.0.1:6379/1";
       routeCounts := routeCounts this1; routeLimits := routeLimits this1 |} in
  (limitRateNonCluster this1 "/a").1 = (limitRateNonCluster this2 "/a").1
  /\ routeCounts (limitRateNonCluster this1 "/a").2
     = routeCounts (limitRateNonCluster this2 "/a").2
  /\ routeLimits (limitRateNonCluster this1 "/a").2
     = routeLimits (limitRateNonCluster this2 "/a").2.
Proof.
  intros this1 this2.
  apply (C10_local_deterministic this1 this2 "/a" "/a"); reflexivity.
Defined.

(** ** The shared check, command by command *)

(** [limitRateCluster] issues EXISTS, then GET, then INCR, and stops at
    the first command that fails or at the first branch that answers. *)
Lemma cluster_run this p w :
  limitRateCluster this p w
  = if down w (clock w)
    then (Rejected Unreachable, advance 1 (kv w) w)
    else
      match kv w !! routeKey p with
      | None => (Fulfilled (notConfigured p), advance 1 (kv w) w)
      | Some c =>
          if down w (S (clock w))
          then (Rejected Unreachable, advance 2 (kv w) w)
          else if JS.lt (JS.Num c) (JS.prop (routeLimits this) p)
          then
            if down w (S (S (clock w)))
            then (Rejected Unreachable, advance 3 (kv w) w)
            else (Fulfilled Next,
                  advance 3 (<[routeKey p := c + 1]> (kv w)) w)
          else (Fulfilled (limitReached p), advance 2 (kv w) w)
      end.
Proof.
  unfold limitRateCluster, _pathIsValidForLimit, _getPathCountCluster,
    _incrementPathCountCluster, Redis.exists_, Redis.get, Redis.incr,
    await, command, resolve, advance.
  destruct (down w (clock w)) eqn:D0; [done|]. cbn -[JS.lt].
  destruct (kv w !! routeKey p) as [c|] eqn:K; cbn -[JS.lt]; [|done].
  destruct (down w (S (clock w))) eqn:D1; [done|]. cbn -[JS.lt].
  rewrite K.
  destruct (JS.lt _ _); cbn; [|done].
  destruct (down w (S (S (clock w)))) eqn:D2; [done|]. cbn.
  by rewrite K.
Qed.

Lemma routeKey_inj p q : routeKey p = routeKey q -> p = q.
Proof. unfold routeKey. simpl. by intros [=]. Qed.

Lemma limitRate_cluster this p w :
  clusterMode this = true ->
  limitRate this p w
  = ((limitRateCluster this p w).1, this, (limitRateCluster this p w).2).
Proof.
  unfold limitRate. intros ->. by destruct (limitRateCluster this p w).
Qed.

Lemma limitRate_local this p w :
  clusterMode this = false ->
  limitRate this p w
  = (Fulfilled (limitRateNonCluster this p).1,
     (limitRateNonCluster this p).2, w).
Proof.
  unfold limitRate. intros ->. by destruct (limitRateNonCluster this p).
Qed.

Lemma limitRate_outcome this p w r this1 w1 :
  limitRate this p w = (r, this1, w1) -> outcome this p w r this1 w1.
Proof.
  destruct (clusterMode this) eqn:Hmode.
  - rewrite (limitRate_cluster _ _ _ Hmode), cluster_run.
    assert (Hcnt : forall q, counter this w q = kv w !! routeKey q)
      by (intros q; unfold counter; by rewrite Hmode).
    destruct (down w (clock w)) eqn:D0.
    { intros [= <- <- <-]. apply out_failed; try done.
      exists (clock w). simpl. split; [lia|done]. }
    destruct (kv w !! routeKey p) as [c|] eqn:K.
    2:{ intros [= <- <- <-]. apply out_unknown; try done.
        - by rewrite Hcnt.
        - simpl. intros n Hn. by replace n with (clock w) by lia. }
    destruct (down w (S (clock w))) eqn:D1.
    { intros [= <- <- <-]. apply out_failed; try done.
      exists (S (clock w)). simpl. split; [lia|done]. }
    assert (Hup2 : forall n, (clock w <= n < 2 + clock w)%nat ->
                             down w n = false).
    { intros n Hn.
      destruct (decide (n = clock w)) as [->|]; [done|].
      by replace n with (S (clock w)) by lia. }
    destruct (JS.lt _ _) eqn:Hlt.
    2:{ intros [= <- <- <-]. eapply out_full; try done. by rewrite Hcnt. }
    destruct (down w (S (S (clock w)))) eqn:D2.
    { intros [= <- <- <-]. apply out_failed; try done.
      exists (S (S (clock w))). simpl. split; [lia|done]. }
    intros [= <- <- <-]. eapply out_allow; try done.
    + by rewrite Hcnt.
    + simpl. intros n Hn.
      destruct (decide (n = S (S (clock w)))) as [->|]; [done|].
      apply Hup2. lia.
    + unfold counter, sharedCount. rewrite Hmode. simpl.
      apply lookup_insert_eq.
    + intros q Hq. unfold counter, sharedCount. rewrite Hmode. simpl.
      apply lookup_insert_ne. intros E. by apply routeKey_inj in E.
  - rewrite (limitRate_local _ _ _ Hmode).
    assert (Hcnt : forall q, counter this w q = localCount this q)
      by (intros q; unfold counter; by rewrite Hmode).
    assert (Hup : forall n, (clock w <= n < clock w)%nat ->
                            down w n = false) by (intros; lia).
    unfold limitRateNonCluster.
    destruct (routeCounts this) as [counts|] eqn:C.
    2:{ intros [= <- <- <-]. apply out_unknown; try done.
        rewrite Hcnt. unfold localCount. by rewrite C. }
    destruct (counts !! p) as [c|] eqn:K.
    2:{ intros [= <- <- <-]. apply out_unknown; try done.
        rewrite Hcnt. unfold localCount. by rewrite C. }
    destruct (JS.lt _ _) eqn:Hlt.
    2:{ intros [= <- <- <-]. eapply out_full; try done.
        rewrite Hcnt. unfold localCount. by rewrite C. }
    intros [= <- <- <-]. eapply out_allow; try done.
    + rewrite Hcnt. unfold localCount. by rewrite C.
    + unfold counter, localCount. simpl. rewrite Hmode. simpl.
      apply lookup_insert_eq.
    + intros q Hq. rewrite Hcnt. unfold counter, localCount. simpl.
      rewrite Hmode, C. simpl. by apply lookup_insert_ne.
Qed.

(** ** Store failures *)

(** C3. In shared mode, when a store command issued during a call (the
    existence check, the read or the increment) fails in transport, the
    call ends in the rejection carrying the store error: it is neither of
    the two rejection responses nor [next()], and no counter has moved. *)
Theorem C3_transport_failure this p w r this1 w1 :
  clusterMode this = true ->
  limitRate this p w = (r, this1, w1) ->
  (exists n, (clock w <= n < clock w1)%nat /\ down w n = true) ->
  r = Rejected Unreachable
  /\ r <> Fulfilled Next
  /\ r <> Fulfilled (notConfigured p)
  /\ r <> Fulfilled (limitReached p)
  /\ (forall e, r <> Fulfilled e)
  /\ kv w1 = kv w.
Proof.
  intros Hmode Hrun [n [Hn Hdown]].
  destruct (limitRate_outcome _ _ _ _ _ _ Hrun)
    as [this1 w1 _ _ _ _ Hkv | this1 w1 _ Hup | this1 w1 c _ _ Hup
        | this1 w1 c _ _ Hup];
    try (rewrite (Hup n Hn) in Hdown; discriminate).
  repeat split; try done.
Qed.

Lemma C3_transport_failure_witness :
  (limitRate (constructor (quotaTwo true) (reachable ∅)).1 "/a"
             (failing {[ "routeCounts:/a" := 0 ]})).1.1
  = Rejected Unreachable.
Proof.
  eapply (C3_transport_failure
            (constructor (quotaTwo true) (reachable ∅)).1 "/a"
            (failing {[ "routeCounts:/a" := 0 ]})).
  - reflexivity.
  - reflexivity.
  - exists 1%nat. split; [simpl; lia | reflexivity].
Defined.

(** ** The two rejections *)



(** ** Counters only move up, one admitted request at a time *)

Lemma serve_cons this p rest w :
  serve this (p :: rest) w
  = let r := limitRate this p w in
    let rs := serve r.1.2 rest r.2 in
    (r.1.1 :: rs.1.1, rs.1.2, rs.2).
Proof.
  simpl. destruct (limitRate this p w) as [[r this1] w1]. simpl.
  by destruct (serve this1 rest w1) as [[rs this2] w2].
Qed.

Lemma limitRate_monotone this p w r this1 w1 q c :
  limitRate this p w = (r, this1, w1) ->
  counter this w q = Some c ->
  exists c1, counter this1 w1 q = Some c1 /\ c <= c1.
Proof.
  intros Hrun Hq. apply limitRate_outcome in Hrun.
  destruct Hrun as [this1 w1 _ _ _ Hsame _ | this1 w1 _ _ _ Hsame _
                    | this1 w1 c0 _ _ _ _ Hsame _
                    | this1 w1 c0 Hc0 _ _ _ Hp Hother];
    try (exists c; rewrite Hsame; split; [done|lia]).
  destruct (decide (q = p)) as [->|Hne].
  - exists (c0 + 1). split; [done|]. rewrite Hc0 in Hq. injection Hq. lia.
  - exists c. rewrite (Hother q Hne). split; [done|lia].
Qed.

Lemma serve_monotone reqs : forall this w q c,
  counter this w q = Some c ->
  exists c1, counter (serve this reqs w).1.2 (serve this reqs w).2 q = Some c1
             /\ c <= c1.
Proof.
  induction reqs as [|p rest IH]; intros this w q c Hq.
  - exists c. split; [done|lia].
  - rewrite serve_cons. cbn [fst snd].
    destruct (limitRate this p w) as [[r this1] w1] eqn:Hrun. cbn [fst snd].
    destruct (limitRate_monotone _ _ _ _ _ _ _ _ Hrun Hq) as [c1 [Hc1 Hle]].
    destruct (IH this1 w1 q c1 Hc1) as [c2 [Hc2 Hle2]].
    exists c2. split; [done|lia].
Qed.

(** C5. For one call in either mode and every route: when the call is
    let through, the counter of the requested route goes from [c] to
    [c + 1] and no other counter changes; when the call is rejected or
    fails, no counter changes; so over any sequence of calls no counter
    ever decreases. *)
Theorem C5_counter_moves this p w r this1 w1 :
  limitRate this p w = (r, this1, w1) ->
  (r = Fulfilled Next ->
     (exists c, counter this w p = Some c
                /\ counter this1 w1 p = Some (c + 1))
     /\ forall q, q <> p -> counter this1 w1 q = counter this w q)
  /\ (r <> Fulfilled Next ->
     forall q, counter this1 w1 q = counter this w q)
  /\ (forall q c, counter this w q = Some c ->
     exists c1, counter this1 w1 q = Some c1 /\ c <= c1)
  /\ (forall reqs q c, counter this w q = Some c ->
     exists c1,
       counter (serve this reqs w).1.2 (serve this reqs w).2 q = Some c1
       /\ c <= c1).
Proof.
  intros Hrun.
  split; [|split; [|split]].
  - intros ->. apply limitRate_outcome in Hrun. inversion Hrun; subst.
    split; [eauto|done].
  - intros Hr. apply limitRate_outcome in Hrun.
    inversion Hrun; subst; done.
  - intros q c. by apply limitRate_monotone with (p := p) (r := r).
  - intros reqs q c. apply serve_monotone.
Qed.

Lemma C5_counter_moves_witness :
  let this := (constructor (quotaTwo true) (reachable ∅)).1 in
  let w := (constructor (quotaTwo true) (reachable ∅)).2 in
  exists c, counter this w "/a" = Some c
            /\ counter this (limitRate this "/a" w).2 "/a" = Some (c + 1).
Proof.
  intros this w.
  refine (proj1 (proj1 (C5_counter_moves this "/a" w (Fulfilled Next)
                          this (limitRate this "/a" w).2 _) _)).
  - reflexivity.
  - reflexivity.
Defined.

(** ** Seeding the store *)

Lemma forget_setnx key w :
  forget (Redis.setnx (routeKey key) 0) w
  = advance 1
      (if down w (clock w) then kv w
       else match kv w !! routeKey key with
            | Some _ => kv w
            | None => <[routeKey key := 0]> (kv w)
            end) w.
Proof.
  unfold forget, Redis.setnx, command, advance.
  destruct (down w (clock w)); [done|].
  by destruct (kv w !! routeKey key).
Qed.

Lemma seed_cons p ps w :
  seed (p :: ps) w = seed ps (forget (Redis.setnx (routeKey p) 0) w).
Proof. reflexivity. Qed.

Lemma seed_down ps : forall w, down (seed ps w) = down w.
Proof.
  induction ps as [|p ps IH]; intros w; [done|].
  by rewrite seed_cons, IH, forget_setnx.
Qed.

Lemma seed_clock ps : forall w, clock (seed ps w) = (length ps + clock w)%nat.
Proof.
  induction ps as [|p ps IH]; intros w; [done|].
  rewrite seed_cons, IH, forget_setnx. simpl. lia.
Qed.

(** SETNX never replaces a value. *)
Lemma seed_keeps ps : forall w k v,
  kv w !! k = Some v -> kv (seed ps w) !! k = Some v.
Proof.
  induction ps as [|p ps IH]; intros w k v Hk; [done|].
  rewrite seed_cons. apply IH. rewrite forget_setnx. simpl.
  destruct (down w (clock w)); [done|].
  destruct (kv w !! routeKey p) eqn:Hp; [done|].
  rewrite lookup_insert_ne; [done|]. intros <-. congruence.
Qed.

(** What seeding changes is a zero under the key of a seeded route that
    had no value. *)
Lemma seed_writes ps : forall w k,
  kv (seed ps w) !! k = kv w !! k
  \/ (kv w !! k = None /\ kv (seed ps w) !! k = Some 0
      /\ exists route, route ∈ ps /\ k = routeKey route).
Proof.
  induction ps as [|p ps IH]; intros w k; [by left|].
  rewrite seed_cons.
  set (w1 := forget (Redis.setnx (routeKey p) 0) w).
  assert (Hstep : kv w1 !! k = kv w !! k
                  \/ (kv w !! k = None /\ kv w1 !! k = Some 0
                      /\ k = routeKey p)).
  { subst w1. rewrite forget_setnx. simpl.
    destruct (down w (clock w)); [by left|].
    destruct (kv w !! routeKey p) eqn:Hp; [by left|].
    destruct (decide (k = routeKey p)) as [->|Hne].
    - right. by rewrite lookup_insert_eq.
    - left. by rewrite lookup_insert_ne. }
  destruct Hstep as [Hsame | (Hnone & Hzero & ->)].
  - destruct (IH w1 k) as [Heq | (Hnone & Hzero & route & Hin & ->)].
    + left. congruence.
    + right. rewrite <- Hsame. split; [done|]. split; [done|].
      exists route. split; [by apply list_elem_of_further|done].
  - right. split; [done|]. split; [by apply seed_keeps|].
    exists p. split; [apply list_elem_of_here|done].
Qed.

(** When every command goes through, every seeded route has a value. *)
Lemma seed_covers ps : forall w route,
  (forall n, (clock w <= n < length ps + clock w)%nat -> down w n = false) ->
  route ∈ ps -> is_Some (kv (seed ps w) !! routeKey route).
Proof.
  induction ps as [|p ps IH]; intros w route Hup Hin.
  - by apply elem_of_nil in Hin.
  - rewrite seed_cons.
    set (w1 := forget (Redis.setnx (routeKey p) 0) w).
    assert (Hp : is_Some (kv w1 !! routeKey p)).
    { subst w1. rewrite forget_setnx. simpl.
      rewrite (Hup (clock w)) by (simpl; lia).
      destruct (kv w !! routeKey p) eqn:E; [by rewrite E|].
      by rewrite lookup_insert_eq. }
    apply elem_of_cons in Hin as [->|Hin].
    + destruct Hp as [v Hv]. exists v. by apply seed_keeps.
    + apply IH; [|done]. subst w1. rewrite forget_setnx. simpl.
      intros n Hn. apply Hup. simpl. lia.
Qed.

(** Seeding a store that already has all the keys changes nothing. *)
Lemma seed_noop ps : forall w,
  (forall route, route ∈ ps -> is_Some (kv w !! routeKey route)) ->
  kv (seed ps w) = kv w.
Proof.
  induction ps as [|p ps IH]; intros w Hall; [done|].
  rewrite seed_cons.
  assert (Hstep : kv (forget (Redis.setnx (routeKey p) 0) w) = kv w).
  { rewrite forget_setnx. simpl. destruct (down w (clock w)); [done|].
    destruct (Hall p (list_elem_of_here _ _)) as [v ->]. done. }
  rewrite IH; [done|]. intros route Hin. rewrite Hstep.
  apply Hall. by apply list_elem_of_further.
Qed.

Lemma elem_of_keys (o : gmap string Z) route :
  route ∈ keys o <-> is_Some (o !! route).
Proof.
  unfold keys. rewrite list_elem_of_fmap. split.
  - intros [[k v] [-> Hin]]. apply elem_of_map_to_list in Hin. by exists v.
  - intros [v Hv]. exists (route, v). split; [done|].
    by apply elem_of_map_to_list.
Qed.

Lemma constructor_cluster config w :
  cfg_clusterMode config = true ->
  constructor config w
  = ({| clusterMode := true;
        connectionString := cfg_connectionString config;
        routeCounts := None;
        routeLimits := cfg_routeLimits config |},
     seed (keys (cfg_routeLimits config)) w).
Proof. unfold constructor. by intros ->. Qed.

(** C6. Constructing a shared-mode controller, and constructing it again
    on the store the first construction left, never changes a value the
    store already held, whatever commands fail; the only thing seeding
    writes is a zero under the key of a configured route that had no
    value; and when the store answers, the second construction leaves
    the contents exactly as the first one left them. *)
Theorem C6_seeding_idempotent config w :
  cfg_clusterMode config = true ->
  let w1 := (constructor config w).2 in
  let w2 := (constructor config w1).2 in
  (forall k v, kv w !! k = Some v ->
     kv w1 !! k = Some v /\ kv w2 !! k = Some v)
  /\ (forall k, kv w1 !! k <> kv w !! k ->
     kv w !! k = None /\ kv w1 !! k = Some 0
     /\ exists route,
          is_Some (cfg_routeLimits config !! route) /\ k = routeKey route)
  /\ ((forall n, down w n = false) ->
     kv w2 = kv w1
     /\ forall route, is_Some (cfg_routeLimits config !! route) ->
          is_Some (kv w1 !! routeKey route))
  /\ ((forall route, is_Some (cfg_routeLimits config !! route) ->
         is_Some (kv w !! routeKey route)) ->
     kv w1 = kv w /\ kv w2 = kv w).
Proof.
  intros Hmode w1 w2. subst w2 w1.
  rewrite !(constructor_cluster _ _ Hmode). cbn [snd].
  set (ps := keys (cfg_routeLimits config)).
  split; [|split; [|split]].
  - intros k v Hk. split; [by apply seed_keeps|by do 2 apply seed_keeps].
  - intros k Hne.
    destruct (seed_writes ps w k) as [Heq|(Hnone & Hzero & route & Hin & ->)];
      [done|].
    split; [done|]. split; [done|].
    exists route. split; [by apply elem_of_keys|done].
  - intros Hup.
    assert (Hcov : forall route, is_Some (cfg_routeLimits config !! route) ->
                     is_Some (kv (seed ps w) !! routeKey route)).
    { intros route Hr. apply seed_covers; [by intros; apply Hup|].
      by apply elem_of_keys. }
    split; [|done].
    apply seed_noop. intros route Hin. apply Hcov. by apply elem_of_keys.
  - intros Hall.
    assert (H1 : kv (seed ps w) = kv w).
    { apply seed_noop. intros route Hin. apply Hall. by apply elem_of_keys. }
    split; [done|]. transitivity (kv (seed ps w)); [|done].
    apply seed_noop. intros route Hin. rewrite H1.
    apply Hall. by apply elem_of_keys.
Qed.

Lemma C6_seeding_idempotent_witness :
  let w := reachable {[ "routeCounts:/a" := 1 ]} in
  let w1 := (constructor (quotaTwo true) w).2 in
  let w2 := (constructor (quotaTwo true) w1).2 in
  kv w1 !! "routeCounts:/a" = Some 1 /\ kv w2 !! "routeCounts:/a" = Some 1.
Proof.
  intros w w1 w2.
  apply (proj1 (C6_seeding_idempotent (quotaTwo true) w eq_refl)
           "routeCounts:/a" 1).
  reflexivity.
Defined.

(** ** Unknown routes *)








(** ** Requests in flight together in one process *)

Lemma local_step this p e this1 :
  limitRateNonCluster this p = (e, this1) ->
  routeLimits this1 = routeLimits this
  /\ ((e = Next
       /\ exists c, localCount this p = Some c
            /\ JS.lt (JS.Num c) (JS.prop (routeLimits this) p) = true
            /\ localCount this1 p = Some (c + 1)
            /\ forall q, q <> p -> localCount this1 q = localCount this q)
      \/ (isNext e = false /\ this1 = this
          /\ forall c, localCount this p = Some c ->
               JS.lt (JS.Num c) (JS.prop (routeLimits this) p) = false)).
Proof.
  unfold limitRateNonCluster, localCount.
  destruct (routeCounts this) as [counts|] eqn:C; simpl.
  2:{ intros [= <- <-]. split; [done|]. right. done. }
  destruct (counts !! p) as [c|] eqn:K.
  2:{ intros [= <- <-]. split; [done|]. right. done. }
  destruct (JS.lt _ _) eqn:Hlt; intros [= <- <-]; (split; [done|]).
  - left. split; [done|]. exists c. simpl.
    split; [done|]. split; [done|].
    split; [apply lookup_insert_eq|].
    intros q Hq. by apply lookup_insert_ne.
  - right.
    split; [done|]. split; [done|]. by intros c0 [= <-].
Qed.

Lemma arrived_snoc route done p e :
  arrived route (done ++ [(p, e)])
  = (arrived route done + if decide (p = route) then 1 else 0)%nat.
Proof.
  unfold arrived. rewrite filter_app, length_app. f_equal.
  rewrite filter_cons, filter_nil. simpl. by destruct (decide (p = route)).
Qed.

Lemma admitted_snoc route done p e :
  admitted route (done ++ [(p, e)])
  = (admitted route done
     + if decide (p = route) then (if isNext e then 1 else 0) else 0)%nat.
Proof.
  unfold admitted. rewrite filter_app, length_app. f_equal.
  rewrite filter_cons, filter_nil. cbn [fst snd].
  destruct (decide (p = route /\ isNext e = true)) as [[-> ->]|Hno].
  - by destruct (decide (route = route)).
  - destruct (decide (p = route)) as [->|]; [|done].
    destruct (isNext e); [|done]. by destruct Hno.
Qed.

Lemma requests_pick route pre p post :
  requests route (pre ++ p :: post)
  = (requests route (pre ++ post) + if decide (p = route) then 1 else 0)%nat.
Proof.
  unfold requests. rewrite !filter_app, !length_app, filter_cons.
  destruct (decide (p = route)); simpl; lia.
Qed.

(** What one pick keeps true about [route] with quota [n]: the counter is
    the number of requests let through, that number is the number handled
    capped by the quota, and no request is lost. *)
Lemma pick_invariant route n total s s1 :
  pick s s1 ->
  routeLimits (server s) !! route = Some n
  /\ localCount (server s) route = Some (Z.of_nat (admitted route (handled s)))
  /\ admitted route (handled s)
     = (arrived route (handled s) `min` Z.to_nat n)%nat
  /\ (arrived route (handled s) + requests route (pending s))%nat = total ->
  routeLimits (server s1) !! route = Some n
  /\ localCount (server s1) route
     = Some (Z.of_nat (admitted route (handled s1)))
  /\ admitted route (handled s1)
     = (arrived route (handled s1) `min` Z.to_nat n)%nat
  /\ (arrived route (handled s1) + requests route (pending s1))%nat = total.
Proof.
  intros [this pre p post done e this1 Hrun] (Hn & Hcount & Hadm & Htotal).
  cbn [server pending handled] in *.
  rewrite arrived_snoc, admitted_snoc.
  rewrite requests_pick in Htotal.
  apply local_step in Hrun as [Hlim Hcase]. rewrite Hlim.
  split; [done|].
  destruct (decide (p = route)) as [->|Hne].
  - destruct Hcase as [(-> & c & Hc & Hlt & Hc1 & _) | (Hrej & -> & Hfull)].
    + rewrite Hcount in Hc. injection Hc as <-.
      rewrite lt_num_prop, Hn in Hlt. apply Z.ltb_lt in Hlt.
      simpl. rewrite Hc1. split; [f_equal; lia|]. lia.
    + rewrite Hrej. specialize (Hfull _ Hcount).
      rewrite lt_num_prop, Hn in Hfull. apply Z.ltb_ge in Hfull.
      rewrite Nat.add_0_r. split; [done|]. lia.
  - rewrite !Nat.add_0_r. rewrite Nat.add_0_r in Htotal.
    split; [|done].
    destruct Hcase as [(-> & c & _ & _ & _ & Hother) | (_ & -> & _)];
      [by rewrite Hother|done].
Qed.

Lemma pick_run route n total s s1 :
  rtc pick s s1 ->
  routeLimits (server s) !! route = Some n
  /\ localCount (server s) route = Some (Z.of_nat (admitted route (handled s)))
  /\ admitted route (handled s)
     = (arrived route (handled s) `min` Z.to_nat n)%nat
  /\ (arrived route (handled s) + requests route (pending s))%nat = total ->
  routeLimits (server s1) !! route = Some n
  /\ localCount (server s1) route
     = Some (Z.of_nat (admitted route (handled s1)))
  /\ admitted route (handled s1)
     = (arrived route (handled s1) `min` Z.to_nat n)%nat
  /\ (arrived route (handled s1) + requests route (pending s1))%nat = total.
Proof.
  induction 1 as [s|s s1 s2 Hstep _ IH]; [done|].
  intros Hinv. apply IH. by apply (pick_invariant _ _ _ _ _ Hstep).
Qed.

(** A pool that is not empty can always be picked from. *)
Lemma pick_progress this p rest done :
  exists s1,
    pick {| server := this; pending := p :: rest; handled := done |} s1.
Proof.
  destruct (limitRateNonCluster this p) as [e this1] eqn:Hrun.
  eexists. by apply (pick_one this [] p rest done e this1).
Qed.

Lemma admitted_le_arrived route done :
  (admitted route done <= arrived route done)%nat.
Proof.
  unfold admitted, arrived. induction done as [|x l IH]; [done|].
  rewrite !filter_cons.
  destruct (decide (x.1 = route /\ isNext x.2 = true)) as [[Hx _]|_];
    destruct (decide (x.1 = route)) as [|Hne]; simpl; try lia.
  by destruct Hne.
Qed.

Lemma all_admitted route done :
  admitted route done = arrived route done ->
  forall e, (route, e) ∈ done -> e = Next.
Proof.
  induction done as [|[p e0] done IH]; intros Heq e Hin.
  - by apply elem_of_nil in Hin.
  - pose proof (admitted_le_arrived route done) as Hle.
    change ((p, e0) :: done) with ([(p, e0)] ++ done) in Heq.
    unfold admitted, arrived in Heq, Hle.
    rewrite !filter_app, !length_app, !filter_cons, !filter_nil in Heq.
    cbn [fst snd] in Heq.
    destruct (decide (p = route /\ isNext e0 = true)) as [[Hp Hnext]|Hno].
    + destruct (decide (p = route)) as [_|Hne]; [|by destruct Hne].
      simpl in Heq.
      apply elem_of_cons in Hin as [[= ->]|Hin]; [by destruct e0|].
      apply IH; [unfold admitted, arrived; lia|done].
    + destruct (decide (p = route)) as [Hp|Hp]; simpl in Heq; [lia|].
      apply elem_of_cons in Hin as [[= <- _]|Hin]; [done|].
      apply IH; [unfold admitted, arrived; lia|done].
Qed.

(** C8. In local mode, take any pool of requests in flight together and
    any order in which the event loop picks them, each pick running
    [limitRateNonCluster] to completion.  At every point the number of
    requests let through on a route is at most its quota; once the pool
    is empty it is the number of requests on the route capped by the
    quota; and when the pool held exactly as many requests on the route
    as the quota, every one of them was let through. *)
Theorem C8_no_over_admission config w route n reqs final :
  cfg_clusterMode config = false ->
  cfg_routeLimits config !! route = Some n ->
  rtc pick {| server := (constructor config w).1;
              pending := reqs; handled := [] |} final ->
  (admitted route (handled final) <= Z.to_nat n)%nat
  /\ (pending final = [] ->
      admitted route (handled final)
      = (requests route reqs `min` Z.to_nat n)%nat)
  /\ (pending final = [] -> requests route reqs = Z.to_nat n ->
      admitted route (handled final) = Z.to_nat n
      /\ arrived route (handled final) = Z.to_nat n
      /\ forall e, (route, e) ∈ handled final -> e = Next).
Proof.
  intros Hmode Hn Hrun.
  apply (pick_run route n (requests route reqs)) in Hrun.
  2:{ rewrite (constructor_local _ _ Hmode).
      cbn [server pending handled fst]. split; [done|].
      split; [|done]. unfold localCount. simpl. by rewrite lookup_fmap, Hn. }
  destruct Hrun as (_ & _ & Hadm & Htotal).
  split; [lia|]. split.
  - intros Hempty. rewrite Hempty in Htotal.
    unfold requests at 1 in Htotal. simpl in Htotal. lia.
  - intros Hempty Hexact. rewrite Hempty in Htotal.
    unfold requests at 1 in Htotal. simpl in Htotal.
    assert (Harr : arrived route (handled final) = Z.to_nat n) by lia.
    split; [lia|]. split; [done|].
    apply all_admitted. lia.
Qed.

Lemma C8_no_over_admission_witness :
  admitted "/a" (handled raceEnd) = 2%nat
  /\ arrived "/a" (handled raceEnd) = 2%nat
  /\ forall e, ("/a", e) ∈ handled raceEnd -> e = Next.
Proof.
  refine (proj2 (proj2 (C8_no_over_admission (quotaTwo false) (reachable ∅)
                          "/a" 2 ["/a"; "/b"; "/a"] raceEnd _ _ _)) _ _).
  - reflexivity.
  - reflexivity.
  - unfold raceEnd.
    eapply rtc_l;
      [eapply (pick_one _ ["/a"; "/b"] "/a" [] [] Next); reflexivity|].
    eapply rtc_l;
      [eapply (pick_one _ [] "/a" ["/b"] _ Next); reflexivity|].
    eapply rtc_l;
      [eapply (pick_one _ [] "/b" [] _ (notConfigured "/b")); reflexivity|].
    apply rtc_refl.
  - reflexivity.
  - reflexivity.
Defined.

(** * Further properties of the two strategies *)

(** ** What a call leaves alone *)

Lemma limitRate_frame this p w r this1 w1 :
  limitRate this p w = (r, this1, w1) ->
  routeLimits this1 = routeLimits this
  /\ clusterMode this1 = clusterMode this
  /\ connectionString this1 = connectionString this
  /\ down w1 = down w
  /\ dom (kv w1) = dom (kv w)
  /\ dom <$> routeCounts this1 = dom <$> routeCounts this
  /\ (clusterMode this = true -> this1 = this)
  /\ (clusterMode this = false -> w1 = w).
Proof.
  destruct (clusterMode this) eqn:Hmode.
  - rewrite (limitRate_cluster _ _ _ Hmode), cluster_run.
    assert (Hdom : forall c, kv w !! routeKey p = Some c ->
              dom (<[routeKey p := c + 1]> (kv w)) = dom (kv w))
      by (intros c Hc; by apply dom_insert_lookup_L).
    destruct (down w (clock w)); [by intros [= <- <- <-]|].
    destruct (kv w !! routeKey p) as [c|] eqn:K; [|by intros [= <- <- <-]].
    destruct (down w (S (clock w))); [by intros [= <- <- <-]|].
    destruct (JS.lt _ _); [|by intros [= <- <- <-]].
    destruct (down w (S (S (clock w)))); intros [= <- <- <-]; [done|].
    simpl. rewrite (Hdom c) by done. done.
  - rewrite (limitRate_local _ _ _ Hmode). unfold limitRateNonCluster.
    destruct (routeCounts this) as [counts|] eqn:C;
      [|intros [= <- <- <-]; by rewrite ?C].
    destruct (counts !! p) as [c|] eqn:K;
      [|intros [= <- <- <-]; by rewrite ?C].
    destruct (JS.lt _ _); intros [= <- <- <-]; [|by rewrite ?C].
    simpl. rewrite ?C. simpl.
    rewrite (dom_insert_lookup_L counts p (c + 1)) by done. done.
Qed.

(** X5. Whatever requests are handled, in whatever order, the controller
    keeps its quota table, its mode and its connection string, and the
    set of routes that have a counter never changes, neither in the
    in-memory map nor in the store; a cluster-mode controller object is
    never modified and a local-mode controller never touches the store. *)
Theorem serve_frame reqs : forall this w,
  let this1 := (serve this reqs w).1.2 in
  let w1 := (serve this reqs w).2 in
  routeLimits this1 = routeLimits this
  /\ clusterMode this1 = clusterMode this
  /\ connectionString this1 = connectionString this
  /\ down w1 = down w
  /\ dom (kv w1) = dom (kv w)
  /\ dom <$> routeCounts this1 = dom <$> routeCounts this
  /\ (clusterMode this = true -> this1 = this)
  /\ (clusterMode this = false -> w1 = w).
Proof.
  induction reqs as [|p rest IH]; intros this w; [done|].
  rewrite serve_cons. cbn [fst snd].
  destruct (limitRate this p w) as [[r this0] w0] eqn:Hrun. cbn [fst snd].
  destruct (limitRate_frame _ _ _ _ _ _ Hrun)
    as (Hl & Hm & Hs & Hd & Hk & Hc & Hcl & Hlo).
  destruct (IH this0 w0) as (Hl1 & Hm1 & Hs1 & Hd1 & Hk1 & Hc1 & Hcl1 & Hlo1).
  rewrite Hl1, Hm1, Hs1, Hd1, Hk1, Hc1.
  repeat split; try done.
  - intros Ht. rewrite Hcl1 by congruence. by apply Hcl.
  - intros Hf. rewrite Hlo1 by congruence. by apply Hlo.
Qed.

(** ** The cost of a call in store commands *)

(** X6. A cluster-mode call issues one command when it answers
    not-configured, two when it answers limit-reached, three when it lets
    the request through, and between one and three when it fails; a
    local-mode call issues none. *)
Theorem limitRate_commands this p w r this1 w1 :
  limitRate this p w = (r, this1, w1) ->
  (clusterMode this = false -> clock w1 = clock w)
  /\ (clusterMode this = true ->
      (r = Fulfilled (notConfigured p) -> clock w1 = S (clock w))
      /\ (r = Fulfilled (limitReached p) -> clock w1 = S (S (clock w)))
      /\ (r = Fulfilled Next -> clock w1 = S (S (S (clock w))))
      /\ (clock w < clock w1 <= clock w + 3)%nat).
Proof.
  destruct (clusterMode this) eqn:Hmode.
  - rewrite (limitRate_cluster _ _ _ Hmode), cluster_run.
    intros Hrun. split; [done|]. intros _. revert Hrun.
    destruct (down w (clock w));
      [intros [= <- <- <-]; repeat split; (done || simpl; lia)|].
    destruct (kv w !! routeKey p) as [c|] eqn:K;
      [|intros [= <- <- <-]; repeat split; (done || simpl; lia)].
    destruct (down w (S (clock w)));
      [intros [= <- <- <-]; repeat split; (done || simpl; lia)|].
    destruct (JS.lt _ _);
      [|intros [= <- <- <-]; repeat split; (done || simpl; lia)].
    destruct (down w (S (S (clock w))));
      intros [= <- <- <-]; repeat split; (done || simpl; lia).
  - intros Hrun. destruct (limitRate_frame _ _ _ _ _ _ Hrun)
      as (_ & _ & _ & _ & _ & _ & _ & Hlo).
    split; [|done]. intros _. by rewrite Hlo.
Qed.

Lemma limitRate_commands_witness :
  clock (limitRate (constructor (quotaTwo true) (reachable ∅)).1 "/a"
           (constructor (quotaTwo true) (reachable ∅)).2).2 = 4%nat.
Proof.
  refine (proj1 (proj2 (proj2 (proj2 (limitRate_commands
    (constructor (quotaTwo true) (reachable ∅)).1 "/a"
    (constructor (quotaTwo true) (reachable ∅)).2
    (Fulfilled Next) _ _ _) _))) _).
  - reflexivity.
  - reflexivity.
  - reflexivity.
Defined.

(** ** When a request is let through *)



(** ** Counters stay within the quota *)




(** ** The shared strategy against a store that answers *)

Lemma cluster_run_up this p w :
  (forall i, down w i = false) ->
  limitRateCluster this p w
  = match kv w !! routeKey p with
    | None => (Fulfilled (notConfigured p), advance 1 (kv w) w)
    | Some c =>
        if JS.lt (JS.Num c) (JS.prop (routeLimits this) p)
        then (Fulfilled Next, advance 3 (<[routeKey p := c + 1]> (kv w)) w)
        else (Fulfilled (limitReached p), advance 2 (kv w) w)
    end.
Proof. intros Hup. rewrite cluster_run. by rewrite !Hup. Qed.

Lemma seeded_count config w0 route n :
  cfg_routeLimits config !! route = Some n ->
  (forall i, (clock w0 <= i < size (cfg_routeLimits config) + clock w0)%nat ->
     down w0 i = false) ->
  kv (seed (keys (cfg_routeLimits config)) w0) !! routeKey route
  = Some (default 0 (sharedCount w0 route)).
Proof.
  intros Hn Hup. set (ps := keys (cfg_routeLimits config)).
  assert (Hlen : length ps = size (cfg_routeLimits config)).
  { subst ps. unfold keys. by rewrite length_fmap, length_map_to_list. }
  unfold sharedCount.
  destruct (kv w0 !! routeKey route) as [c|] eqn:K; simpl.
  - by apply seed_keeps.
  - destruct (seed_covers ps w0 route) as [v Hv].
    + intros i Hi. apply Hup. lia.
    + apply elem_of_keys. by exists n.
    + destruct (seed_writes ps w0 (routeKey route)) as [Heq|(_ & Hz & _)];
        [congruence|done].
Qed.

Lemma serve_cluster_replicate m : forall this w r c n,
  clusterMode this = true ->
  (forall i, down w i = false) ->
  kv w !! routeKey r = Some c ->
  routeLimits this !! r = Some n ->
  (serve this (replicate m r) w).1.1
  = (fun k =>
       Fulfilled (if c + Z.of_nat k <? n then Next else limitReached r))
      <$> seq 0 m.
Proof.
  induction m as [|m IH]; intros this w r c n Hmode Hup Hc Hn; [done|].
  change (replicate (S m) r) with (r :: replicate m r).
  rewrite serve_cons. cbn [fst snd seq fmap list_fmap].
  rewrite <- fmap_S_seq, <- list_fmap_compose.
  rewrite (limitRate_cluster _ _ _ Hmode), (cluster_run_up _ _ _ Hup), Hc,
    lt_num_prop, Hn.
  replace (c + Z.of_nat 0) with c by lia.
  destruct (Z.ltb_spec c n) as [Hlt|Hge]; cbn [fst snd]; f_equal.
  - rewrite (IH this _ r (c + 1) n);
      [|done|done|simpl; apply lookup_insert_eq|done].
    apply list_fmap_ext. intros _ k _. simpl.
    by replace (c + 1 + Z.of_nat k) with (c + Z.of_nat (S k)) by lia.
  - rewrite (IH this _ r c n); [|done|done|done|done].
    apply list_fmap_ext. intros _ k _. simpl.
    destruct (Z.ltb_spec (c + Z.of_nat k) n),
             (Z.ltb_spec (c + Z.of_nat (S k)) n); (done || lia).
Qed.

(** X1. In cluster mode against a store that answers, the count a route
    already has in the store is kept by the constructor and counts
    against the quota: with [c] the stored count at construction (0 when
    the key was absent), the call of index [k] in a run of sequential
    calls on the route is let through when [c + k] is below the quota
    and gets the limit-reached response otherwise. *)
Theorem shared_quota_boundary config w0 route n m :
  cfg_clusterMode config = true ->
  cfg_routeLimits config !! route = Some n ->
  (forall i, down w0 i = false) ->
  let this := (constructor config w0).1 in
  let w := (constructor config w0).2 in
  let c := default 0 (sharedCount w0 route) in
  (serve this (replicate m route) w).1.1
  = (fun k =>
       Fulfilled (if c + Z.of_nat k <? n then Next else limitReached route))
      <$> seq 0 m.
Proof.
  intros Hmode Hn Hup this w c. subst this w c.
  rewrite (constructor_cluster _ _ Hmode). cbn [fst snd].
  apply serve_cluster_replicate;
    [done| |apply (seeded_count _ _ _ n); [done|by intros; apply Hup]|done].
  intros i. by rewrite seed_down.
Qed.

Lemma shared_quota_boundary_witness :
  (serve (constructor (quotaTwo true) (reachable {[ "routeCounts:/a" := 1 ]})).1
         (replicate 3 "/a")
         (constructor (quotaTwo true)
            (reachable {[ "routeCounts:/a" := 1 ]})).2).1.1
  = [Fulfilled Next; Fulfilled (limitReached "/a");
     Fulfilled (limitReached "/a")].
Proof.
  exact (shared_quota_boundary (quotaTwo true)
           (reachable {[ "routeCounts:/a" := 1 ]}) "/a" 2 3
           eq_refl eq_refl (fun _ => eq_refl)).
Defined.

(** ** Configured routes and the seeding *)

(** X7. A configured route is never answered not-configured: in local
    mode after any sequence of calls, and in cluster mode after any
    sequence of calls provided the seeding commands of the constructor
    reached the store. *)
Theorem configured_route_known config w0 reqs route n :
  cfg_routeLimits config !! route = Some n ->
  (cfg_clusterMode config = true ->
   forall i, (clock w0 <= i < size (cfg_routeLimits config) + clock w0)%nat ->
             down w0 i = false) ->
  let this := (constructor config w0).1 in
  let w := (constructor config w0).2 in
  let this1 := (serve this reqs w).1.2 in
  let w1 := (serve this reqs w).2 in
  (limitRate this1 route w1).1.1 <> Fulfilled (notConfigured route).
Proof.
  intros Hn Hup this w this1 w1.
  assert (Hc : exists c, counter this w route = Some c).
  { subst this w. unfold counter. destruct (cfg_clusterMode config) eqn:Hmode.
    - rewrite (constructor_cluster _ _ Hmode). cbn [fst snd clusterMode].
      unfold sharedCount at 1. rewrite (seeded_count _ _ _ n) by auto. eauto.
    - rewrite (constructor_local _ _ Hmode). cbn [fst snd clusterMode].
      unfold localCount. simpl. rewrite lookup_fmap, Hn. eauto. }
  destruct Hc as [c Hc].
  destruct (serve_monotone reqs this w route c Hc) as (c1 & Hc1 & _).
  fold this1 w1 in Hc1.
  destruct (limitRate this1 route w1) as [[r this2] w2] eqn:Hrun.
  cbn [fst]. intros ->. apply limitRate_outcome in Hrun.
  inversion Hrun; congruence.
Qed.

Lemma configured_route_known_witness :
  (limitRate
     (serve (constructor (quotaTwo true) (reachable ∅)).1 ["/a"; "/b"; "/a"]
            (constructor (quotaTwo true) (reachable ∅)).2).1.2 "/a"
     (serve (constructor (quotaTwo true) (reachable ∅)).1 ["/a"; "/b"; "/a"]
            (constructor (quotaTwo true) (reachable ∅)).2).2).1.1
  <> Fulfilled (notConfigured "/a").
Proof.
  apply (configured_route_known (quotaTwo true) (reachable ∅)
           ["/a"; "/b"; "/a"] "/a" 2).
  - reflexivity.
  - intros _ i _. reflexivity.
Defined.

Lemma seed_lost ps : forall w,
  (forall i, (clock w <= i < length ps + clock w)%nat -> down w i = true) ->
  kv (seed ps w) = kv w.
Proof.
  induction ps as [|p ps IH]; intros w Hdown; [done|].
  rewrite seed_cons, IH.
  - rewrite forget_setnx. simpl. by rewrite (Hdown (clock w)) by (simpl; lia).
  - rewrite forget_setnx. simpl. intros i Hi. apply Hdown. simpl. lia.
Qed.

(** X8. When every seeding command of the cluster-mode constructor fails
    in transport, the constructor still returns a controller and the
    store is left as it was; a configured route whose key the store does
    not hold is then answered not-configured as soon as the store
    answers again, and its counter is not created. *)
Theorem seeding_lost config w0 route :
  cfg_clusterMode config = true ->
  (forall i, (clock w0 <= i < size (cfg_routeLimits config) + clock w0)%nat ->
             down w0 i = true) ->
  let this := (constructor config w0).1 in
  let w := (constructor config w0).2 in
  kv w = kv w0
  /\ routeLimits this = cfg_routeLimits config
  /\ (sharedCount w0 route = None -> down w (clock w) = false ->
      (limitRate this route w).1.1 = Fulfilled (notConfigured route)
      /\ kv (limitRate this route w).2 = kv w0).
Proof.
  intros Hmode Hdown this w. subst this w.
  rewrite (constructor_cluster _ _ Hmode). cbn [fst snd].
  set (ps := keys (cfg_routeLimits config)).
  assert (Hlen : length ps = size (cfg_routeLimits config)).
  { subst ps. unfold keys. by rewrite length_fmap, length_map_to_list. }
  assert (Hkv : kv (seed ps w0) = kv w0).
  { apply seed_lost. intros i Hi. apply Hdown. lia. }
  split; [done|]. split; [done|].
  intros Hnone Hback.
  rewrite limitRate_cluster by done. rewrite cluster_run. cbn [fst snd].
  rewrite Hback, Hkv. unfold sharedCount in Hnone. by rewrite Hnone.
Qed.

Lemma seeding_lost_witness :
  (limitRate (constructor (quotaTwo true) (outage 1 ∅)).1 "/a"
             (constructor (quotaTwo true) (outage 1 ∅)).2).1.1
  = Fulfilled (notConfigured "/a")
  /\ kv (limitRate (constructor (quotaTwo true) (outage 1 ∅)).1 "/a"
                   (constructor (quotaTwo true) (outage 1 ∅)).2).2 = ∅.
Proof.
  refine (proj2 (proj2 (seeding_lost (quotaTwo true) (outage 1 ∅) "/a" _ _))
            _ _).
  - reflexivity.
  - intros i Hi. change (size (cfg_routeLimits (quotaTwo true))) with 1%nat in Hi.
    simpl in Hi. unfold outage. simpl. apply bool_decide_eq_true. lia.
  - reflexivity.
  - reflexivity.
Defined.

(** X13. The cluster-mode constructor issues exactly one store command
    for each route of the quota table, whether the commands go through
    or fail, and the local-mode constructor issues none. *)
Theorem constructor_commands config w :
  clock (constructor config w).2
  = ((if cfg_clusterMode config then size (cfg_routeLimits config) else 0)
     + clock w)%nat
  /\ down (constructor config w).2 = down w.
Proof.
  destruct (cfg_clusterMode config) eqn:Hmode.
  - rewrite (constructor_cluster _ _ Hmode). cbn [snd].
    rewrite seed_clock, seed_down. unfold keys.
    by rewrite length_fmap, length_map_to_list.
  - by rewrite (constructor_local _ _ Hmode).
Qed.

(** ** One call when no store command fails *)

Lemma limitRate_up this p w :
  (forall i, down w i = false) ->
  (limitRate this p w).1.1
  = Fulfilled
      match counter this w p with
      | None => notConfigured p
      | Some c =>
          if JS.lt (JS.Num c) (JS.prop (routeLimits this) p)
          then Next else limitReached p
      end
  /\ counter (limitRate this p w).1.2 (limitRate this p w).2 p
     = match counter this w p with
       | None => None
       | Some c =>
           if JS.lt (JS.Num c) (JS.prop (routeLimits this) p)
           then Some (c + 1) else Some c
       end
  /\ forall q, q <> p ->
       counter (limitRate this p w).1.2 (limitRate this p w).2 q
       = counter this w q.
Proof.
  intros Hup.
  destruct (limitRate this p w) as [[r this1] w1] eqn:Hrun. cbn [fst snd].
  apply limitRate_outcome in Hrun.
  destruct Hrun as [this1 w1 _ [i [_ Hi]] _ _ _ | this1 w1 Hc _ _ Hsame _
                    | this1 w1 c Hc Hlt _ _ Hsame _
                    | this1 w1 c Hc Hlt _ _ Hp Hother].
  - by rewrite Hup in Hi.
  - rewrite Hc. split; [done|]. split; [by rewrite Hsame|by intros; apply Hsame].
  - rewrite Hc, Hlt. split; [done|].
    split; [by rewrite Hsame|by intros; apply Hsame].
  - by rewrite Hc, Hlt.
Qed.

Lemma limitRate_keeps_up this p w :
  (forall i, down w i = false) ->
  (forall i, down (limitRate this p w).2 i = false)
  /\ routeLimits (limitRate this p w).1.2 = routeLimits this.
Proof.
  intros Hup. destruct (limitRate this p w) as [[r this1] w1] eqn:Hrun.
  destruct (limitRate_frame _ _ _ _ _ _ Hrun) as (Hl & _ & _ & Hd & _).
  cbn [fst snd]. by rewrite Hd.
Qed.

(** ** The two strategies side by side *)




(** ** Routes do not interfere *)

Lemma serve_isolated route reqs : forall thisA wA thisB wB,
  (forall i, down wA i = false) -> (forall i, down wB i = false) ->
  routeLimits thisA !! route = routeLimits thisB !! route ->
  counter thisA wA route = counter thisB wB route ->
  let sA := serve thisA reqs wA in
  let sB := serve thisB (filter (fun p => p = route) reqs) wB in
  (forall i, down sA.2 i = false) /\ (forall i, down sB.2 i = false)
  /\ routeLimits sA.1.2 !! route = routeLimits sB.1.2 !! route
  /\ counter sA.1.2 sA.2 route = counter sB.1.2 sB.2 route.
Proof.
  induction reqs as [|p rest IH]; intros thisA wA thisB wB HupA HupB Hl Hc;
    [done|].
  rewrite filter_cons. rewrite serve_cons. cbn [fst snd].
  destruct (limitRate_up thisA p wA HupA) as (HrA & HpA & HqA).
  destruct (limitRate_keeps_up thisA p wA HupA) as (HupA1 & HlA).
  destruct (decide (p = route)) as [->|Hne].
  - rewrite serve_cons. cbn [fst snd].
    destruct (limitRate_up thisB route wB HupB) as (HrB & HpB & HqB).
    destruct (limitRate_keeps_up thisB route wB HupB) as (HupB1 & HlB).
    apply IH; [done|done|by rewrite HlA, HlB|].
    rewrite HpA, HpB, Hc. unfold JS.prop. by rewrite Hl.
  - apply IH; [done|done|by rewrite HlA|]. by rewrite HqA.
Qed.

(** X9. When no store command fails, what a route's counter is after a
    sequence of requests, and so the answer to the next request on that
    route, depends only on the requests of the sequence that were on
    that route: requests on other routes, configured or not, never use
    up a route's quota. *)
Theorem route_isolation reqs this w route :
  (forall i, down w i = false) ->
  let sA := serve this reqs w in
  let sB := serve this (filter (fun p => p = route) reqs) w in
  counter sA.1.2 sA.2 route = counter sB.1.2 sB.2 route
  /\ (limitRate sA.1.2 route sA.2).1.1 = (limitRate sB.1.2 route sB.2).1.1.
Proof.
  intros Hup sA sB.
  destruct (serve_isolated route reqs this w this w Hup Hup eq_refl eq_refl)
    as (HupA & HupB & Hl & Hc).
  fold sA sB in HupA, HupB, Hl, Hc.
  split; [done|].
  destruct (limitRate_up sA.1.2 route sA.2 HupA) as (-> & _).
  destruct (limitRate_up sB.1.2 route sB.2 HupB) as (-> & _).
  rewrite Hc. unfold JS.prop. by rewrite Hl.
Qed.

Lemma route_isolation_witness :
  (limitRate
     (serve (constructor (quotaTwo true) (reachable ∅)).1
            ["/b"; "/a"; "/c"; "/a"; "/b"]
            (constructor (quotaTwo true) (reachable ∅)).2).1.2 "/a"
     (serve (constructor (quotaTwo true) (reachable ∅)).1
            ["/b"; "/a"; "/c"; "/a"; "/b"]
            (constructor (quotaTwo true) (reachable ∅)).2).2).1.1
  = (limitRate
       (serve (constructor (quotaTwo true) (reachable ∅)).1 ["/a"; "/a"]
              (constructor (quotaTwo true) (reachable ∅)).2).1.2 "/a"
       (serve (constructor (quotaTwo true) (reachable ∅)).1 ["/a"; "/a"]
              (constructor (quotaTwo true) (reachable ∅)).2).2).1.1.
Proof.
  refine (proj2 (route_isolation ["/b"; "/a"; "/c"; "/a"; "/b"]
                   (constructor (quotaTwo true) (reachable ∅)).1
                   (constructor (quotaTwo true) (reachable ∅)).2 "/a" _)).
  reflexivity.
Defined.

(** ** Cluster-mode calls in flight together *)

Lemma resume_step this t w :
  resume this t w
  = match taskStage t with
    | AtExists =>
        if down w (clock w)
        then (Done (Rejected Unreachable), advance 1 (kv w) w)
        else match kv w !! routeKey (taskPath t) with
             | Some _ => (AtGet, advance 1 (kv w) w)
             | None => (Done (Fulfilled (notConfigured (taskPath t))),
                        advance 1 (kv w) w)
             end
    | AtGet =>
        if down w (clock w)
        then (Done (Rejected Unreachable), advance 1 (kv w) w)
        else if match routeLimits this !! taskPath t with
                | Some n => default 0 (kv w !! routeKey (taskPath t)) <? n
                | None => false
                end
             then (AtIncr, advance 1 (kv w) w)
             else (Done (Fulfilled (limitReached (taskPath t))),
                   advance 1 (kv w) w)
    | AtIncr =>
        if down w (clock w)
        then (Done (Rejected Unreachable), advance 1 (kv w) w)
        else (Done (Fulfilled Next),
              advance 1 (<[routeKey (taskPath t) :=
                             default 0 (kv w !! routeKey (taskPath t)) + 1]>
                           (kv w)) w)
    | Done r => (Done r, w)
    end.
Proof.
  unfold resume, _pathIsValidForLimit, _getPathCountCluster,
    _incrementPathCountCluster, Redis.exists_, Redis.get, Redis.incr,
    await, command, resolve, advance.
  destruct (taskStage t); [| | |done].
  - destruct (down w (clock w)); [done|].
    by destruct (kv w !! routeKey (taskPath t)).
  - destruct (down w (clock w)); [done|]. cbn -[JS.lt].
    unfold JS.lt, JS.prop.
    by destruct (kv w !! routeKey (taskPath t)) as [c|],
                (routeLimits this !! taskPath t) as [n|].
  - by destruct (down w (clock w)).
Qed.


Lemma tally_pick f route pre t post :
  tally f route (pre ++ t :: post)
  = (tally f route (pre ++ post)
     + if bool_decide (taskPath t = route) && f (taskStage t)
       then 1 else 0)%nat.
Proof.
  unfold tally. rewrite !filter_app, !length_app, filter_cons.
  destruct (decide (taskPath t = route /\ f (taskStage t) = true))
    as [[Hp Hf]|Hno].
  - rewrite (bool_decide_eq_true_2 _ Hp), Hf. simpl. lia.
  - destruct (bool_decide (taskPath t = route)) eqn:Hp; simpl; [|lia].
    apply bool_decide_eq_true in Hp.
    destruct (f (taskStage t)); [by destruct Hno|lia].
Qed.

Lemma tally_le f route ts :
  (tally f route ts <= tally (fun _ => true) route ts)%nat.
Proof.
  unfold tally. induction ts as [|t ts IH]; [done|].
  rewrite !filter_cons.
  destruct (decide (taskPath t = route /\ f (taskStage t) = true))
    as [[Hp _]|_];
    destruct (decide (taskPath t = route /\ true = true)) as [_|Hno];
    simpl; try lia.
  by destruct Hno.
Qed.

Lemma tally_launch f route reqs :
  f AtExists = false -> tally f route (launch reqs) = 0%nat.
Proof.
  intros Hf. unfold tally, launch. induction reqs as [|p reqs IH]; [done|].
  rewrite fmap_cons, filter_cons. simpl.
  destruct (decide _) as [[_ Hc]|_]; [congruence|done].
Qed.

Lemma tally_all_launch route reqs :
  tally (fun _ => true) route (launch reqs) = requests route reqs.
Proof.
  unfold tally, launch, requests. induction reqs as [|p reqs IH]; [done|].
  rewrite fmap_cons, !filter_cons. simpl.
  destruct (decide (p = route /\ true = true)) as [[Hp _]|Hno];
    destruct (decide (p = route)) as [|Hne]; simpl; try lia; try done.
  by destruct Hno.
Qed.

(** What one segment of a call does to the counter of [route]. *)
Lemma resume_effect this t w st w1 route n :
  routeLimits this !! route = Some n ->
  settled (taskStage t) = false ->
  resume this t w = (st, w1) ->
  letThrough (taskStage t) = false
  /\ if bool_decide (taskPath t = route)
     then (passed (taskStage t) = false /\ letThrough st = false
           /\ default 0 (sharedCount w1 route) = default 0 (sharedCount w route)
           /\ (passed st = true -> default 0 (sharedCount w route) < n))
          \/ (passed (taskStage t) = true /\ passed st = false
              /\ default 0 (sharedCount w1 route)
                 = default 0 (sharedCount w route)
                   + if letThrough st then 1 else 0)
     else default 0 (sharedCount w1 route) = default 0 (sharedCount w route).
Proof.
  intros Hn Hlive. rewrite resume_step. unfold sharedCount.
  destruct (bool_decide (taskPath t = route)) eqn:Hp.
  - apply bool_decide_eq_true in Hp. rewrite Hp, Hn.
    destruct (taskStage t); [| | |done].
    + destruct (down w (clock w)); [intros [= <- <-]; split; [done|]; by left|].
      destruct (kv w !! routeKey route) eqn:K;
        intros [= <- <-]; (split; [done|]); left; simpl; by rewrite ?K.
    + destruct (down w (clock w)); [intros [= <- <-]; split; [done|]; by left|].
      destruct (Z.ltb_spec (default 0 (kv w !! routeKey route)) n);
        intros [= <- <-]; (split; [done|]); left; simpl; repeat split; done.
    + destruct (down w (clock w)); intros [= <- <-]; (split; [done|]); right;
        simpl; (split; [done|]); (split; [done|]); [lia|].
      by rewrite lookup_insert_eq.
  - apply bool_decide_eq_false in Hp.
    destruct (taskStage t); [| | |done].
    + destruct (down w (clock w)); [by intros [= <- <-]|].
      by destruct (kv w !! routeKey (taskPath t)); intros [= <- <-].
    + destruct (down w (clock w)); [by intros [= <- <-]|].
      by destruct (match routeLimits this !! taskPath t with
                   | Some _ => _ | None => _ end); intros [= <- <-].
    + destruct (down w (clock w)); intros [= <- <-]; (split; [done|]);
        [done|]. simpl.
      rewrite lookup_insert_ne; [done|].
      intros E. by apply routeKey_inj in E.
Qed.

(** What every turn keeps true about [route] with quota [n] in a pool of
    [k] calls on the route, started with [c0] in the store. *)
Lemma race_invariant this route n c0 k s s1 :
  routeLimits this !! route = Some n ->
  race this s s1 ->
  tally (fun _ => true) route s.1 = k
  /\ default 0 (sharedCount s.2 route) + Z.of_nat (tally passed route s.1)
     <= Z.max c0 (n - 1 + Z.of_nat k)
  /\ default 0 (sharedCount s.2 route)
     = c0 + Z.of_nat (tally letThrough route s.1)
  /\ (n <= c0 -> tally passed route s.1 = 0%nat
                 /\ tally letThrough route s.1 = 0%nat) ->
  tally (fun _ => true) route s1.1 = k
  /\ default 0 (sharedCount s1.2 route) + Z.of_nat (tally passed route s1.1)
     <= Z.max c0 (n - 1 + Z.of_nat k)
  /\ default 0 (sharedCount s1.2 route)
     = c0 + Z.of_nat (tally letThrough route s1.1)
  /\ (n <= c0 -> tally passed route s1.1 = 0%nat
                 /\ tally letThrough route s1.1 = 0%nat).
Proof.
  intros Hn [pre t post w st w1 Hlive Hres] (Hk & Hbound & Hcount & Hfull).
  cbn [fst snd] in *.
  pose proof (tally_le passed route (pre ++ post)) as Hle.
  rewrite tally_pick in Hk, Hbound, Hcount. rewrite !tally_pick in Hfull.
  rewrite !tally_pick. cbn [taskPath taskStage].
  destruct (resume_effect this t w st w1 route n Hn Hlive Hres)
    as [Hlt0 Heff].
  rewrite Hlt0, andb_false_r, Nat.add_0_r in Hcount, Hfull.
  rewrite andb_true_r in Hk |- *.
  destruct (bool_decide (taskPath t = route)); cbn [andb] in *.
  - destruct Heff as [(Hp0 & Hlt1 & Hcnt & Hpass) | (Hp0 & Hp1 & Hcnt)].
    + rewrite Hp0, Nat.add_0_r in Hbound, Hfull. rewrite Hlt1, Hcnt.
      split; [done|]. split; [|split; [lia|]].
      * destruct (passed st); [specialize (Hpass eq_refl)|]; lia.
      * intros Hc0. specialize (Hfull Hc0).
        destruct (passed st); [specialize (Hpass eq_refl)|]; lia.
    + rewrite Hp0 in Hbound, Hfull. rewrite Hp1, Hcnt.
      split; [done|]. split; [|split].
      * destruct (letThrough st); lia.
      * destruct (letThrough st); lia.
      * intros Hc0. specialize (Hfull Hc0). lia.
  - rewrite Heff. rewrite !Nat.add_0_r in *. done.
Qed.

Lemma race_run this route n c0 k s s1 :
  routeLimits this !! route = Some n ->
  rtc (race this) s s1 ->
  tally (fun _ => true) route s.1 = k
  /\ default 0 (sharedCount s.2 route) + Z.of_nat (tally passed route s.1)
     <= Z.max c0 (n - 1 + Z.of_nat k)
  /\ default 0 (sharedCount s.2 route)
     = c0 + Z.of_nat (tally letThrough route s.1)
  /\ (n <= c0 -> tally passed route s.1 = 0%nat
                 /\ tally letThrough route s.1 = 0%nat) ->
  tally (fun _ => true) route s1.1 = k
  /\ default 0 (sharedCount s1.2 route) + Z.of_nat (tally passed route s1.1)
     <= Z.max c0 (n - 1 + Z.of_nat k)
  /\ default 0 (sharedCount s1.2 route)
     = c0 + Z.of_nat (tally letThrough route s1.1)
  /\ (n <= c0 -> tally passed route s1.1 = 0%nat
                 /\ tally letThrough route s1.1 = 0%nat).
Proof.
  intros Hn. induction 1 as [s|s s1 s2 Hstep _ IH]; [done|].
  intros Hinv. apply IH. by apply (race_invariant _ _ _ _ _ _ _ Hn Hstep).
Qed.

(** X11. Take any pool of cluster-mode calls started together, on any
    routes, and any order in which their store commands take turns, with
    any commands failing.  For a route with quota [n], [k] calls in the
    pool and [c0] in the store at the start: the stored count is always
    [c0] plus the number of calls let through; it never exceeds the
    larger of [c0] and [n + k - 1]; so at most [n - c0 + k - 1] calls are
    let through, which is [k - 1] more than the quota leaves; and none is
    let through when [c0] has already reached the quota. *)
Theorem race_overshoot_bounded this route n reqs w0 ts w :
  routeLimits this !! route = Some n ->
  rtc (race this) (launch reqs, w0) (ts, w) ->
  let c0 := default 0 (sharedCount w0 route) in
  let k := Z.of_nat (requests route reqs) in
  let through := Z.of_nat (tally letThrough route ts) in
  default 0 (sharedCount w route) = c0 + through
  /\ default 0 (sharedCount w route) <= Z.max c0 (n + k - 1)
  /\ through <= Z.max 0 (n - c0 + k - 1)
  /\ (n <= c0 -> through = 0).
Proof.
  intros Hn Hrun c0 k through. subst c0 k through.
  apply (race_run this route n (default 0 (sharedCount w0 route))
           (requests route reqs)) in Hrun; [|done|].
  - cbn [fst snd] in Hrun. destruct Hrun as (_ & Hbound & Hcount & Hfull).
    split; [done|]. split; [lia|]. split; [lia|].
    intros Hc0. destruct (Hfull Hc0) as [_ ->]. done.
  - cbn [fst snd]. rewrite tally_all_launch, !tally_launch by done.
    repeat split; lia.
Qed.

Lemma replicate_snoc_app {A} (x : A) i (l : list A) :
  replicate i x ++ x :: l = replicate (S i) x ++ l.
Proof. induction i as [|i IH]; [done|]. simpl. by rewrite IH. Qed.

(** A pool of identical calls, each taking one segment that reads the
    store without changing it. *)
Lemma race_phase_read this route stA stB m :
  settled stA = false ->
  (forall w, (forall i, down w i = false) -> kv w = m ->
     resume this {| taskPath := route; taskStage := stA |} w
     = (stB, advance 1 m w)) ->
  forall j i w, (forall i, down w i = false) -> kv w = m ->
    rtc (race this)
        (replicate i {| taskPath := route; taskStage := stB |}
           ++ replicate j {| taskPath := route; taskStage := stA |}, w)
        (replicate (i + j) {| taskPath := route; taskStage := stB |},
         advance j m w).
Proof.
  intros Hlive Hseg. induction j as [|j IH]; intros i w Hup Hkv.
  - rewrite app_nil_r, Nat.add_0_r. destruct w as [m0 c d]. simpl in Hkv.
    subst m0. apply rtc_refl.
  - simpl replicate. eapply rtc_l.
    + apply (race_resume this _ _ _ w stB (advance 1 m w)); [done|].
      by apply Hseg.
    + cbn [taskPath]. rewrite replicate_snoc_app.
      replace (advance (S j) m w) with (advance j m (advance 1 m w))
        by (unfold advance; simpl; f_equal; lia).
      replace (i + S j)%nat with (S i + j)%nat by lia.
      by apply IH.
Qed.

Lemma race_phase_incr this route :
  forall j i w c, (forall i, down w i = false) ->
    kv w !! routeKey route = Some c ->
    exists w1,
      rtc (race this)
          (replicate i {| taskPath := route;
                          taskStage := Done (Fulfilled Next) |}
             ++ replicate j {| taskPath := route; taskStage := AtIncr |}, w)
          (replicate (i + j) {| taskPath := route;
                                taskStage := Done (Fulfilled Next) |}, w1)
      /\ kv w1 !! routeKey route = Some (c + Z.of_nat j).
Proof.
  induction j as [|j IH]; intros i w c Hup Hc.
  - exists w. rewrite app_nil_r, Nat.add_0_r, Z.add_0_r.
    split; [apply rtc_refl|done].
  - set (w1 := advance 1 (<[routeKey route := c + 1]> (kv w)) w).
    destruct (IH (S i) w1 (c + 1)) as (w2 & Hrun & Hc2).
    { done. }
    { apply lookup_insert_eq. }
    exists w2. split.
    + simpl replicate. eapply rtc_l.
      * apply (race_resume this _ _ _ w (Done (Fulfilled Next)) w1); [done|].
        rewrite resume_step. cbn [taskStage taskPath].
        by rewrite Hup, Hc.
      * cbn [taskPath]. rewrite replicate_snoc_app.
        by replace (i + S j)%nat with (S i + j)%nat by lia.
    + rewrite Hc2. f_equal. lia.
Qed.

(** X12. The bound of X11 is reached: when the store answers and holds a
    count [c] below the quota of a route, [k] calls on the route started
    together, whatever [k], can all be let through, by the order in
    which every call has read the count before any call increments; the
    store then counts [c + k]. *)
Theorem race_overshoot_reached this route n c k w0 :
  routeLimits this !! route = Some n ->
  (forall i, down w0 i = false) ->
  sharedCount w0 route = Some c ->
  c < n ->
  exists w,
    rtc (race this) (launch (replicate k route), w0)
        (replicate k {| taskPath := route;
                        taskStage := Done (Fulfilled Next) |}, w)
    /\ sharedCount w route = Some (c + Z.of_nat k).
Proof.
  intros Hn Hup Hc Hlt. unfold sharedCount in *.
  assert (H1 : rtc (race this) (launch (replicate k route), w0)
                 (replicate k {| taskPath := route; taskStage := AtGet |},
                  advance k (kv w0) w0)).
  { unfold launch. rewrite fmap_replicate.
    apply (race_phase_read this route AtExists AtGet (kv w0) eq_refl)
      with (i := 0%nat); [|done|done].
    intros w Hw Hkv. rewrite resume_step. cbn [taskStage taskPath].
    by rewrite Hw, Hkv, Hc. }
  assert (H2 : rtc (race this)
                 (replicate k {| taskPath := route; taskStage := AtGet |},
                  advance k (kv w0) w0)
                 (replicate k {| taskPath := route; taskStage := AtIncr |},
                  advance k (kv w0) (advance k (kv w0) w0))).
  { apply (race_phase_read this route AtGet AtIncr (kv w0) eq_refl)
      with (i := 0%nat); [|done|done].
    intros w Hw Hkv. rewrite resume_step. cbn [taskStage taskPath].
    rewrite Hw, Hkv, Hc, Hn. simpl.
    by destruct (Z.ltb_spec c n); [|lia]. }
  destruct (race_phase_incr this route k 0
              (advance k (kv w0) (advance k (kv w0) w0)) c)
    as (w & H3 & Hw); [done|done|].
  exists w. split; [|done].
  etrans; [exact H1|].
  etrans; [exact H2|exact H3].
Qed.

Lemma race_overshoot_bounded_witness :
  default 0 (sharedCount overshootEnd.2 "/a") = 3
  /\ default 0 (sharedCount overshootEnd.2 "/a") <= 3
  /\ Z.of_nat (tally letThrough "/a" overshootEnd.1) <= 2
  /\ (2 <= 1 -> Z.of_nat (tally letThrough "/a" overshootEnd.1) = 0).
Proof.
  refine (race_overshoot_bounded
            (constructor (quotaTwo true) (reachable ∅)).1 "/a" 2 ["/a"; "/a"]
            (reachable {[ "routeCounts:/a" := 1 ]})
            overshootEnd.1 overshootEnd.2 _ _).
  - reflexivity.
  - eapply rtc_l;
      [eapply (race_resume _ [] _ [_]); [reflexivity|reflexivity]|].
    eapply rtc_l;
      [eapply (race_resume _ [_] _ []); [reflexivity|reflexivity]|].
    eapply rtc_l;
      [eapply (race_resume _ [] _ [_]); [reflexivity|reflexivity]|].
    eapply rtc_l;
      [eapply (race_resume _ [_] _ []); [reflexivity|reflexivity]|].
    eapply rtc_l;
      [eapply (race_resume _ [] _ [_]); [reflexivity|reflexivity]|].
    eapply rtc_l;
      [eapply (race_resume _ [_] _ []); [reflexivity|reflexivity]|].
    apply rtc_refl.
Defined.

Lemma race_overshoot_reached_witness :
  exists w,
    rtc (race (constructor (quotaTwo true) (reachable ∅)).1)
        (launch (replicate 2 "/a"), reachable {[ "routeCounts:/a" := 1 ]})
        (replicate 2 {| taskPath := "/a";
                        taskStage := Done (Fulfilled Next) |}, w)
    /\ sharedCount w "/a" = Some (1 + Z.of_nat 2).
Proof.
  apply (race_overshoot_reached
           (constructor (quotaTwo true) (reachable ∅)).1 "/a" 2 1 2
           (reachable {[ "routeCounts:/a" := 1 ]})).
  - reflexivity.
  - reflexivity.
  - reflexivity.
  - lia.
Defined.
